(** * advanced-open-file: the [Path] wrapper of lib/models.js

    A shallow embedding of the [Path] class (lib/models.js) and of the two
    helpers it imports from lib/utils.js ([preferredSeparatorFor],
    [absolutify]).

    JavaScript strings are modelled as lists of 8-bit code units
    ([list ascii]), and the default [Array.prototype.sort] order is the
    code-unit order.  Code units above U+00FF are not represented, so the
    case mapping written out below is that of Latin-1; the properties stated
    for every string do not depend on it.  The services the class takes from the host ([path.sep],
    [path.dirname], [String.prototype.localeCompare] and the project root
    behind [absolutify]) are the fields of a [host] record, so every result
    holds for every host unless a hypothesis says otherwise. *)

From stdpp Require Import base list strings.
From Stdlib Require Import Ascii ZArith Lia Sorting.Mergesort Sorting.Sorted.
From Stdlib Require String.

(** ** JavaScript strings *)

Definition jstr := list ascii.

(** A string literal as a list of code units. *)
Definition js (s : string) : jstr := String.list_ascii_of_string s.

Definition code (c : ascii) : nat := nat_of_ascii c.

(** Truthiness of a string: [''] is falsy, every other string truthy. *)
Definition truthy (s : jstr) : bool :=
  match s with [] => false | _ => true end.

(** [s.endsWith(t)]. *)
Definition endsWith (s t : jstr) : bool :=
  (length t <=? length s) && bool_decide (drop (length s - length t) s = t).

(** [s.split(c)] for a one-character separator [c]. *)
Fixpoint split (c : ascii) (s : jstr) : list jstr :=
  match s with
  | [] => [[]]
  | x :: r =>
      let parts := split c r in
      if bool_decide (x = c) then [] :: parts
      else match parts with
           | p :: ps => (x :: p) :: ps
           | [] => [[x]]
           end
  end.

(** [s.indexOf(c) !== -1]. *)
Definition contains (c : ascii) (s : jstr) : bool :=
  existsb (fun x => bool_decide (x = c)) s.

(** [c.toLowerCase()] for the one-unit string [c], a string: A-Z and the
    Latin-1 capitals U+00C0..U+00DE (except U+00D7) are shifted by 0x20;
    every other unit of the 8-bit range is its own lower case. *)
Definition toLowerCase (c : ascii) : jstr :=
  let n := code c in
  if ((65 <=? n) && (n <=? 90)) || ((192 <=? n) && (n <=? 222) && negb (n =? 215))
  then [ascii_of_nat (n + 32)] else [c].

(** ** The host *)

Record host := {
  (** [path.sep] *)
  native_sep : ascii;
  (** [path.dirname] *)
  dirname : jstr -> jstr;
  (** [absolutify] of lib/utils.js *)
  absolutify : jstr -> jstr;
  (** [String.prototype.localeCompare] *)
  localeCompare : jstr -> jstr -> Z
}.

(** Modelled from the spec: [preferredSeparatorFor] of lib/utils.js (not in
    the sources), from section 4.1: the separator found in the string when
    exactly one of [/] and [\] occurs in it, the native separator when both
    or neither occur. *)
Definition preferredSeparatorFor (h : host) (path : jstr) : ascii :=
  let fwd := contains "/"%char path in
  let back := contains "\"%char path in
  if fwd && negb back then "/"%char
  else if back && negb fwd then "\"%char
  else native_sep h.

(** ** The [Path] class *)

Record Path := {
  directory : jstr;
  fragment : jstr;
  full : jstr;
  absolute : jstr;
  sep : ascii
}.

(** [new Path(path)] *)
Definition new_Path (h : host) (path : jstr) : Path :=
  let sep := preferredSeparatorFor h path in
  let parts := split sep path in
  let fragment := default [] (parts !! (length parts - 1)) in
  let directory := take (length path - length fragment) path in
  {| directory := directory; fragment := fragment; full := path;
     absolute := absolutify h path; sep := sep |}.

Definition isRoot (h : host) (p : Path) : bool :=
  bool_decide (dirname h (absolute p) = absolute p).

Definition asDirectory (h : host) (p : Path) : Path :=
  new_Path h (full p ++ (if truthy (fragment p) then [sep p] else [])).

Definition parent (h : host) (p : Path) : Path :=
  if isRoot h p then p
  else if truthy (fragment p) then new_Path h (directory p)
  else
    let newFull := dirname h (directory p) in
    (* Only append a separator if necessary. *)
    let newFull := if negb (endsWith newFull [sep p]) then newFull ++ [sep p]
                   else newFull in
    new_Path h newFull.

(** The loop of [root()]: [while (current !== last) { last = current;
    current = path.dirname(current); }], entered with [last = null]
    ([None]).  The loop need not end for an arbitrary [dirname]: [fuel]
    bounds the number of times its condition is tested, and [None] means
    that it has not ended within that bound. *)
Fixpoint root_loop (h : host) (fuel : nat) (last : option jstr) (current : jstr) : option jstr :=
  match fuel with
  | 0 => None
  | S fuel' =>
      if bool_decide (Some current = last) then Some current
      else root_loop h fuel' (Some current) (dirname h current)
  end.

(** [root()], when its loop ends within [fuel] tests. *)
Definition root (h : host) (fuel : nat) (p : Path) : option Path :=
  new_Path h <$> root_loop h fuel None (absolute p).

Definition hasShortcut (p : Path) (shortcut : jstr) : bool :=
  let shortcut := shortcut ++ [sep p] in
  negb (truthy (fragment p)) &&
    (endsWith (directory p) (sep p :: shortcut)
     || bool_decide (directory p = shortcut)).

Definition equals (p otherPath : Path) : bool :=
  bool_decide (full p = full otherPath).

(** The value of the [defaultInputValue] setting as [Path.initial] tells
    it apart: [config.DEFAULT_ACTIVE_FILE_DIR], [config.DEFAULT_PROJECT_ROOT]
    or any other value (lib/config.js, which defines the two constants, is
    not in the sources). *)
Inductive defaultInputValue :=
| DEFAULT_ACTIVE_FILE_DIR
| DEFAULT_PROJECT_ROOT
| OtherInputValue.

(** What [Path.initial] reads from the editor: the setting, the path of the
    active text editor ([None] when there is no editor or [getPath()] gives
    [undefined]) and the result of [getProjectPath()] of lib/utils.js
    ([None] when it gives no string). *)
Record context := {
  config_defaultInputValue : defaultInputValue;
  activeEditorPath : option jstr;
  projectPath : option jstr
}.

(** [Path.initial()]: the [switch], with the fall-through from the first
    case into the second written out. *)
Definition initial (h : host) (ctx : context) : Path :=
  let projectRootCase :=
    match projectPath ctx with
    | Some projectPath => if truthy projectPath
                          then Some (new_Path h (projectPath ++ [native_sep h])) else None
    | None => None
    end in
  let result :=
    match config_defaultInputValue ctx with
    | DEFAULT_ACTIVE_FILE_DIR =>
        match activeEditorPath ctx with
        | Some editorPath =>
            if truthy editorPath
            then Some (new_Path h (dirname h editorPath ++ [native_sep h]))
            else projectRootCase
        | None => projectRootCase
        end
    | DEFAULT_PROJECT_ROOT => projectRootCase
    | OtherInputValue => None
    end in
  default (new_Path h []) result.

(** [Path.compare] *)
Definition compare (h : host) (path1 path2 : Path) : Z :=
  localeCompare h (full path1) (full path2).

(** ** Code-unit order of strings (the default order of [Array.prototype.sort]) *)

Fixpoint lex_compare (a b : jstr) : comparison :=
  match a, b with
  | [], [] => Eq
  | [], _ :: _ => Lt
  | _ :: _, [] => Gt
  | x :: a', y :: b' =>
      match Nat.compare (code x) (code y) with
      | Eq => lex_compare a' b'
      | c => c
      end
  end.

Definition lex_leb (a b : jstr) : bool :=
  match lex_compare a b with Gt => false | _ => true end.

(** ** JavaScript values and a heap of arrays *)

Inductive jsval :=
| VPath (p : Path)
| VStr (s : jstr)
| VUndef.

(** References to arrays, and the heap of arrays they point into. *)
Abbreviation ref := nat (only parsing).
Abbreviation heap := (list (list jsval)) (only parsing).

Inductive exn :=
| InvalidArgument (msg : jstr)
| TypeError.

(** State and exception monad over the heap. *)
Definition M (A : Type) : Type := heap -> (exn + A) * heap.

Global Instance M_ret : MRet M := fun A x hp => (inr x, hp).
Global Instance M_bind : MBind M := fun A B k m hp =>
  match m hp with
  | (inl e, hp') => (inl e, hp')
  | (inr x, hp') => k x hp'
  end.

Definition throw {A} (e : exn) : M A := fun hp => (inl e, hp).

(** Reading an array; a dangling reference is a [TypeError]. *)
Definition read (r : ref) : M (list jsval) := fun hp =>
  match hp !! r with
  | Some a => (inr a, hp)
  | None => (inl TypeError, hp)
  end.

(** A fresh array. *)
Definition alloc (a : list jsval) : M ref := fun hp => (inr (length hp), hp ++ [a]).

Definition write (r : ref) (a : list jsval) : M unit := fun hp => (inr tt, <[r := a]> hp).

Fixpoint mapM {A B} (f : A -> M B) (l : list A) : M (list B) :=
  match l with
  | [] => mret []
  | x :: l' => y ← f x; ys ← mapM f l'; mret (y :: ys)
  end.

(** The string a value is sorted by: [ToString] of the value ([Path] has no
    [toString] of its own). *)
Definition sortKey (v : jsval) : jstr :=
  match v with
  | VStr s => s
  | VPath _ => js "[object Object]"
  | VUndef => []
  end.

Definition is_undef (v : jsval) : bool :=
  match v with VUndef => true | _ => false end.

Module JsValOrder.
Definition t := jsval.
Definition leb (x y : jsval) : bool := lex_leb (sortKey x) (sortKey y).
Infix "<=?" := leb (at level 70, no associativity).
Lemma leb_total : forall x y, is_true (x <=? y) \/ is_true (y <=? x).
Proof.
  intros x y. unfold leb, lex_leb.
  generalize (sortKey x) (sortKey y). clear x y.
  intros l; induction l as [|a l IH]; intros [|b l']; simpl; auto.
  destruct (Nat.compare_spec (code a) (code b)) as [E|E|E].
  - rewrite E, Nat.compare_refl. apply IH.
  - left. reflexivity.
  - right. apply Nat.compare_lt_iff in E. rewrite E. reflexivity.
Qed.
End JsValOrder.

Module JsSort := Sort JsValOrder.

(** [Array.prototype.sort()] without a comparator: undefined elements go last,
    the others are ordered by the code units of their string form (the sort
    is stable). *)
Definition jsSort (a : list jsval) : list jsval :=
  JsSort.sort (filter (fun v => negb (is_undef v)) a) ++ filter is_undef a.

Definition sortInPlace (r : ref) : M unit :=
  a ← read r; write r (jsSort a).

(** [path.full] for an element of the argument: a [Path] gives its [full]
    string, a string has no [full] property, and [undefined.full] throws. *)
Definition getFull (v : jsval) : M jsval :=
  match v with
  | VPath p => mret (VStr (full p))
  | VStr _ => mret VUndef
  | VUndef => throw TypeError
  end.

(** The loop of [commonPrefix], from position [k] on ([first] and [last] are
    the remaining suffixes); it ends at the shorter string. *)
Fixpoint prefixLoop (caseSensitive : bool) (first last : jstr) : jstr :=
  match first, last with
  | f :: first', l :: last' =>
      if bool_decide (f = l) then f :: prefixLoop caseSensitive first' last'
      else if negb caseSensitive && bool_decide (toLowerCase f = toLowerCase l)
      then toLowerCase f ++ prefixLoop caseSensitive first' last'
      else []
  | _, _ => []
  end.

Definition commonPrefix_msg : jstr :=
  js "Cannot find common prefix for lists shorter than two elements.".

(** [Path.commonPrefix(paths, caseSensitive)]: [paths] is a reference to the
    caller's array. *)
Definition commonPrefix (h : host) (paths : ref) (caseSensitive : bool) : M Path :=
  arr ← read paths;
  if length arr <? 2 then throw (InvalidArgument commonPrefix_msg)
  else
    fulls ← mapM getFull arr;
    a ← alloc fulls;
    _ ← sortInPlace a;
    sorted ← read a;
    let first := default VUndef (sorted !! 0) in
    let last := default VUndef (sorted !! (length sorted - 1)) in
    (* [first.length] and [last.length] throw on undefined *)
    match first, last with
    | VStr first, VStr last => mret (new_Path h (prefixLoop caseSensitive first last))
    | _, _ => throw TypeError
    end.

(** ** A POSIX host *)

(** The scan of node's [path.posix.dirname]: positions [i], [i-1], ..., [1];
    the result is the [end] the loop breaks at. *)
Fixpoint dirname_scan (path : jstr) (i : nat) (matchedSlash : bool) : option nat :=
  match i with
  | 0 => None
  | S i' =>
      if bool_decide (path !! i = Some "/"%char) then
        if matchedSlash then dirname_scan path i' matchedSlash else Some i
      else dirname_scan path i' false
  end.

(** node's [path.posix.dirname]. *)
Definition posix_dirname (path : jstr) : jstr :=
  match path with
  | [] => js "."
  | c :: _ =>
      let hasRoot := bool_decide (c = "/"%char) in
      match dirname_scan path (length path - 1) true with
      | None => if hasRoot then js "/" else js "."
      | Some end_ => if hasRoot && (end_ =? 1) then js "//" else take end_ path
      end
  end.

(** Resolution of the segments of a path: empty and [.] segments are
    dropped, [..] drops the last kept segment. *)
Fixpoint resolve_segments (acc : list jstr) (segs : list jstr) : list jstr :=
  match segs with
  | [] => acc
  | s :: segs' =>
      if bool_decide (s = []) || bool_decide (s = js ".") then resolve_segments acc segs'
      else if bool_decide (s = js "..") then resolve_segments (removelast acc) segs'
      else resolve_segments (acc ++ [s]) segs'
  end.

Fixpoint join_segments (segs : list jstr) : jstr :=
  match segs with
  | [] => []
  | s :: segs' => "/"%char :: s ++ join_segments segs'
  end.

(** Modelled from the spec: [absolutify] of lib/utils.js (not in the
    sources), from sections 3 and 6: an absolute path is kept, a relative
    one is resolved against the base directory [base] (the project root). *)
Definition posix_absolutify (base path : jstr) : jstr :=
  match path with
  | "/"%char :: _ => path
  | _ =>
      match resolve_segments [] (split "/"%char (base ++ "/"%char :: path)) with
      | [] => js "/"
      | segs => join_segments segs
      end
  end.

(** A collation in the manner of the Unicode Collation Algorithm: the soft
    hyphen U+00AD is ignorable, the remaining code units are compared in
    order. *)
Definition soft_hyphen : ascii := ascii_of_nat 173.

Definition collate (a b : jstr) : Z :=
  let strip := filter (fun c => negb (bool_decide (c = soft_hyphen))) in
  match lex_compare (strip a) (strip b) with
  | Lt => -1
  | Eq => 0
  | Gt => 1
  end%Z.

Definition posix_host (base : jstr) : host := {|
  native_sep := "/"%char;
  dirname := posix_dirname;
  absolutify := posix_absolutify base;
  localeCompare := collate
|}.

Definition home := posix_host (js "/home/user").

(** A caller's array of two paths, at reference 0. *)
Definition sample_paths : list Path :=
  [new_Path home (js "/abc"); new_Path home (js "/abd")].

Definition sample_heap : list (list jsval) := [map VPath sample_paths].

(** The same two paths in the other order. *)
Definition sample_heap_swapped : list (list jsval) := [map VPath (rev sample_paths)].

(** An editor with the active file '/home/user/x.txt'. *)
Definition sample_context : context := {|
  config_defaultInputValue := DEFAULT_ACTIVE_FILE_DIR;
  activeEditorPath := Some (js "/home/user/x.txt");
  projectPath := Some (js "/home/user")
|}.

(** ** Properties stated over the model *)

(** A consistent comparator in the sense of ECMAScript (what
    [localeCompare] must be): [a] is equivalent to itself, the sign is
    antisymmetric, and both the order and the equivalence are transitive. *)
Definition consistent_comparator (cmp : jstr -> jstr -> Z) : Prop :=
  (forall a, cmp a a = 0%Z) /\
  (forall a b, Z.sgn (cmp a b) = (- Z.sgn (cmp b a))%Z) /\
  (forall a b c, (cmp a b < 0)%Z -> (cmp b c < 0)%Z -> (cmp a c < 0)%Z) /\
  (forall a b c, cmp a b = 0%Z -> cmp b c = 0%Z -> cmp a c = 0%Z).


(** * Properties *)

(** ** Splitting on a separator *)

Lemma split_not_nil c s : split c s <> [].
Proof.
  destruct s as [|x r]; simpl; [done|].
  case_bool_decide; [done|]. by destruct (split c r).
Qed.

Lemma split_app_sep c u v : split c (u ++ c :: v) = split c u ++ split c v.
Proof.
  induction u as [|x u IH]; simpl.
  - by rewrite bool_decide_eq_true_2.
  - rewrite IH. case_bool_decide; [done|].
    destruct (split c u) as [|q qs] eqn:E; [by apply split_not_nil in E|]. done.
Qed.

Lemma split_no_sep c s : c ∉ s -> split c s = [s].
Proof.
  induction s as [|x r IH]; intros Hc; simpl; [done|].
  rewrite not_elem_of_cons in Hc. destruct Hc as [Hx Hr].
  rewrite bool_decide_eq_false_2 by congruence. by rewrite IH.
Qed.

(** Either the separator does not occur, or the string splits at its last
    occurrence. *)
Lemma last_occurrence (c : ascii) (s : jstr) :
  c ∉ s \/ exists u f, (s = u ++ c :: f) /\ c ∉ f.
Proof.
  induction s as [|x r [Hr | (u & f & -> & Hf)]].
  - left. apply not_elem_of_nil.
  - destruct (decide (x = c)) as [->|Hx].
    + right. exists [], r. done.
    + left. rewrite not_elem_of_cons. done.
  - right. exists (x :: u), f. done.
Qed.

(** The last segment of [s.split(c)]. *)
Definition last_part (c : ascii) (s : jstr) : jstr :=
  let parts := split c s in default [] (parts !! (length parts - 1)).

Lemma last_part_no_sep c s : c ∉ s -> last_part c s = s.
Proof. intros H. unfold last_part. by rewrite split_no_sep. Qed.

Lemma last_part_split c u f : c ∉ f -> last_part c (u ++ c :: f) = f.
Proof.
  intros H. unfold last_part. rewrite split_app_sep, (split_no_sep c f H).
  rewrite length_app. simpl.
  replace (length (split c u) + 1 - 1) with (length (split c u)) by lia.
  by rewrite (list_lookup_middle (split c u) [] f).
Qed.

(** The decomposition [new Path] computes: [fragment] is the text after the
    last separator (all of it when there is none) and [directory] the text
    up to and including that separator. *)
Lemma new_Path_decomp h s :
  let p := new_Path h s in
  sep p = preferredSeparatorFor h s /\ full p = s /\
  (((sep p ∉ s) /\ fragment p = s /\ directory p = []) \/
   (exists u, (s = u ++ sep p :: fragment p) /\ (sep p ∉ fragment p) /\
              directory p = u ++ [sep p])).
Proof.
  simpl. set (c := preferredSeparatorFor h s).
  split; [done|]. split; [done|].
  fold (last_part c s).
  destruct (last_occurrence c s) as [Hn | (u & f & Hs & Hf)].
  - left. rewrite last_part_no_sep by done.
    rewrite Nat.sub_diag. done.
  - right. rewrite Hs, last_part_split by done.
    exists u. split; [done|]. split; [done|].
    rewrite length_app. simpl.
    replace (length u + S (length f) - length f) with (length (u ++ [c]))
      by (rewrite length_app; simpl; lia).
    replace (u ++ c :: f) with ((u ++ [c]) ++ f) by (by rewrite <- app_assoc).
    apply take_app_length.
Qed.

Lemma new_Path_full h s : full (new_Path h s) = s.
Proof. done. Qed.

Lemma new_Path_sep h s : sep (new_Path h s) = preferredSeparatorFor h s.
Proof. done. Qed.

(** ** Separator inference *)

Lemma contains_app c s t : contains c (s ++ t) = contains c s || contains c t.
Proof. apply existsb_app. Qed.

Lemma contains_true c s : contains c s = true <-> c ∈ s.
Proof.
  unfold contains. rewrite existsb_exists, list_elem_of_In. split.
  - intros (x & Hx & Hb). apply bool_decide_eq_true in Hb. by subst.
  - intros H. exists c. split; [done|]. by apply bool_decide_eq_true.
Qed.

(** Appending the inferred separator does not change the inference. *)
Lemma preferredSeparatorFor_snoc h s :
  let c := preferredSeparatorFor h s in preferredSeparatorFor h (s ++ [c]) = c.
Proof.
  unfold preferredSeparatorFor. rewrite !contains_app.
  destruct (contains "/"%char s), (contains "\"%char s); simpl; try done.
  destruct (native_sep h) as [[] [] [] [] [] [] [] []]; done.
Qed.

(** A string that ends with its own inferred separator has a blank fragment. *)
Lemma fragment_snoc_sep h t :
  preferredSeparatorFor h (t ++ [preferredSeparatorFor h t]) = preferredSeparatorFor h t ->
  fragment (new_Path h (t ++ [preferredSeparatorFor h t])) = [].
Proof.
  intros E. unfold new_Path. simpl. fold (last_part (preferredSeparatorFor h (t ++ [preferredSeparatorFor h t])) (t ++ [preferredSeparatorFor h t])).
  rewrite E. apply last_part_split, not_elem_of_nil.
Qed.

Lemma endsWith_spec s t : endsWith s t = true <-> exists u, s = u ++ t.
Proof.
  unfold endsWith. rewrite andb_true_iff, Nat.leb_le, bool_decide_eq_true. split.
  - intros [Hl Hd]. exists (take (length s - length t) s).
    rewrite <- Hd at 2. symmetry. apply take_drop.
  - intros [u ->]. rewrite length_app. split; [lia|].
    replace (length u + length t - length t) with (length u) by lia.
    apply drop_app_length.
Qed.

(** ** Construction *)

(** C1: the directory and the fragment of a [Path] put back together give
    the string it was built from: [directory + fragment == full]. *)
Theorem directory_fragment_full h s :
  directory (new_Path h s) ++ fragment (new_Path h s) = s.
Proof.
  destruct (new_Path_decomp h s) as (_ & _ & [(_ & -> & ->) | (u & Hs & _ & ->)]).
  - done.
  - rewrite <- app_assoc. symmetry. exact Hs.
Qed.

(** C7: construction is a total function of the string (it yields a [Path]
    whose [full] is that string, for every string), and the empty string
    gives a blank fragment and a blank directory. *)
Theorem new_Path_total h s :
  (exists p, new_Path h s = p /\ full p = s) /\
  fragment (new_Path h (js "")) = [] /\ directory (new_Path h (js "")) = [].
Proof. split; [by eexists|]. done. Qed.

(** C8: the fragment never contains the separator inferred for the path. *)
Theorem fragment_no_sep h s : sep (new_Path h s) ∉ fragment (new_Path h s).
Proof.
  destruct (new_Path_decomp h s) as (_ & _ & [(Hn & -> & _) | (u & _ & Hf & _)]);
    done.
Qed.

(** ** [asDirectory] *)

Lemma asDirectory_fragment h s : fragment (asDirectory h (new_Path h s)) = [].
Proof.
  unfold asDirectory. rewrite new_Path_full.
  destruct (truthy (fragment (new_Path h s))) eqn:Et.
  - rewrite new_Path_sep. apply fragment_snoc_sep, preferredSeparatorFor_snoc.
  - rewrite app_nil_r. destruct (fragment (new_Path h s)); done.
Qed.

(** C9: [asDirectory] is idempotent: applied to its own result it gives an
    equal value, in particular the same [full] string. *)
Theorem asDirectory_idempotent h s :
  let p := new_Path h s in
  asDirectory h (asDirectory h p) = asDirectory h p /\
  full (asDirectory h (asDirectory h p)) = full (asDirectory h p).
Proof.
  cbv zeta.
  assert (E : asDirectory h (asDirectory h (new_Path h s)) = asDirectory h (new_Path h s)).
  { unfold asDirectory at 1. rewrite asDirectory_fragment. cbn [truthy]. rewrite app_nil_r.
    unfold asDirectory. by rewrite new_Path_full. }
  by rewrite E.
Qed.

(** ** Shortcuts *)

(** C5: [hasShortcut(token)] holds exactly when the fragment is blank and the
    directory ends with [sep + token + sep] or is [token + sep]; so ':' is a
    shortcut of '/foo/bar/:/' and ':/' but not of '/foo/bar:/' or '/blah/:'. *)
Theorem hasShortcut_spec :
  (forall (p : Path) (token : jstr),
     hasShortcut p token = true <->
     fragment p = [] /\
     ((exists u, directory p = u ++ sep p :: token ++ [sep p]) \/
      directory p = token ++ [sep p])) /\
  (forall h,
     hasShortcut (new_Path h (js "/foo/bar/:/")) (js ":") = true /\
     hasShortcut (new_Path h (js ":/")) (js ":") = true /\
     hasShortcut (new_Path h (js "/foo/bar:/")) (js ":") = false /\
     hasShortcut (new_Path h (js "/blah/:")) (js ":") = false).
Proof.
  split.
  - intros p token. unfold hasShortcut.
    rewrite andb_true_iff, orb_true_iff, endsWith_spec, bool_decide_eq_true.
    destruct (fragment p); simpl; [|naive_solver].
    split; [intros [_ H]; by split | intros [_ H]; by split].
  - intros h. vm_compute. repeat split.
Qed.

(** ** [parent] *)

Lemma preferredSeparatorFor_cases h s :
  let c := preferredSeparatorFor h s in
  c = native_sep h \/ (c = "/"%char /\ "\"%char ∉ s) \/ (c = "\"%char /\ "/"%char ∉ s).
Proof.
  unfold preferredSeparatorFor.
  destruct (contains "/"%char s) eqn:F, (contains "\"%char s) eqn:B; simpl; auto.
  - right. left. split; [done|]. rewrite <- contains_true. by rewrite B.
  - right. right. split; [done|]. rewrite <- contains_true. by rewrite F.
Qed.

(** A string ending with a separator [c] infers [c] when [c] is the native
    separator or the only separator character in it. *)
Lemma preferredSeparatorFor_ends h t c :
  (c = "/"%char \/ c = "\"%char) -> c ∈ t ->
  (c = native_sep h \/
   (forall d, d ∈ t -> d = "/"%char \/ d = "\"%char -> d = c)) ->
  preferredSeparatorFor h t = c.
Proof.
  intros Hc Hin Hcase. unfold preferredSeparatorFor.
  destruct (contains "/"%char t) eqn:F, (contains "\"%char t) eqn:B; simpl.
  - destruct Hcase as [-> | Hall]; [done|].
    apply contains_true in F, B.
    pose proof (Hall _ F (or_introl eq_refl)). pose proof (Hall _ B (or_intror eq_refl)).
    congruence.
  - destruct Hc as [-> | ->]; [done|]. apply contains_true in Hin. congruence.
  - destruct Hc as [-> | ->]; [|done]. apply contains_true in Hin. congruence.
  - destruct Hc as [-> | ->]; apply contains_true in Hin; congruence.
Qed.

Lemma fragment_ends_sep h u c :
  preferredSeparatorFor h (u ++ [c]) = c -> fragment (new_Path h (u ++ [c])) = [].
Proof.
  intros E. unfold new_Path. cbn [fragment]. fold (last_part (preferredSeparatorFor h (u ++ [c])) (u ++ [c])).
  rewrite E. apply last_part_split, not_elem_of_nil.
Qed.

(** Every character of the directory occurs in the full string. *)
Lemma directory_sub h s d : d ∈ directory (new_Path h s) -> d ∈ s.
Proof.
  destruct (new_Path_decomp h s) as (_ & _ & [(_ & _ & ->) | (u & Hs & _ & ->)]).
  - intros H. by apply not_elem_of_nil in H.
  - intros H. rewrite Hs. apply elem_of_app in H as [H|H]; apply elem_of_app; [by left|].
    right. apply list_elem_of_singleton in H. subst. by left.
Qed.

(** The separator of a [Path] is the native one or the only separator
    character of its directory. *)
Lemma sep_condition h s :
  let c := sep (new_Path h s) in
  c = native_sep h \/
  (forall d, d ∈ s -> d = "/"%char \/ d = "\"%char -> d = c).
Proof.
  cbv zeta. rewrite new_Path_sep.
  destruct (preferredSeparatorFor_cases h s) as [E | [[E Hn] | [E Hn]]]; [by left | right | right];
    intros d Hd [-> | ->]; rewrite E; done.
Qed.

(** C4, as the code has it: [parent()] of a root is the value itself (so a
    root is a fixed point, whatever its fragment); for a value that is not a
    root the result is in directory form (blank fragment), when the native
    separator is [/] or [\] and [path.dirname] of the directory introduces
    no separator character the directory lacks (as node's [path.dirname]
    does); and on a POSIX host the parent of '/a/b/' is '/a/'. *)
Theorem parent_policy h s
  (Hnative : native_sep h = "/"%char \/ native_sep h = "\"%char)
  (Hdirname : Forall (fun d => d ∈ directory (new_Path h s) \/ (d <> "/"%char /\ d <> "\"%char))
                     (dirname h (directory (new_Path h s)))) :
  let p := new_Path h s in
  (isRoot h p = true -> parent h p = p) /\
  (isRoot h p = false -> fragment (parent h p) = []) /\
  full (parent home (new_Path home (js "/a/b/"))) = js "/a/".
Proof.
  cbv zeta. split; [|split].
  - intros Hr. unfold parent. by rewrite Hr.
  - intros Hr. unfold parent. rewrite Hr.
    pose proof (sep_condition h s) as Hcond. cbv zeta in Hcond.
    set (c := sep (new_Path h s)) in *.
    assert (Hc : c = "/"%char \/ c = "\"%char).
    { unfold c. rewrite new_Path_sep.
      destruct (preferredSeparatorFor_cases h s) as [-> | [[-> _] | [-> _]]]; auto. }
    (* a string [w ++ [c]] whose separator characters are [c] or occur in
       [s] is in directory form *)
    assert (Hdir : forall w, (forall d, d ∈ w -> d ∈ s \/ d = c \/ (d <> "/"%char /\ d <> "\"%char)) ->
                   fragment (new_Path h (w ++ [c])) = []).
    { intros w Hw. apply fragment_ends_sep, preferredSeparatorFor_ends; [done| |].
      - apply elem_of_app. right. by left.
      - destruct Hcond as [Hn | Hall]; [by left|right].
        intros d Hd Hsep. apply elem_of_app in Hd as [Hd | Hd].
        + destruct (Hw d Hd) as [Hs | [Hs | [H1 H2]]]; [by apply Hall | done |].
          destruct Hsep; congruence.
        + by apply list_elem_of_singleton in Hd. }
    destruct (truthy (fragment (new_Path h s))) eqn:Ht.
    + destruct (new_Path_decomp h s) as (_ & _ & [(_ & _ & ->) | (u & Hs & _ & ->)]);
        [done|].
      apply Hdir. intros d Hd. left. rewrite Hs. apply elem_of_app. by left.
    + cbv zeta.
      assert (Hv : forall d, d ∈ dirname h (directory (new_Path h s)) ->
                   d ∈ s \/ d = c \/ (d <> "/"%char /\ d <> "\"%char)).
      { intros d Hd. rewrite Forall_forall in Hdirname.
        destruct (Hdirname d Hd) as [H | H]; [left; by eapply directory_sub | by right; right]. }
      destruct (endsWith (dirname h (directory (new_Path h s))) [c]) eqn:He; cbn [negb].
      * apply endsWith_spec in He as [w Hw]. rewrite Hw. apply Hdir.
        intros d Hd. apply Hv. rewrite Hw. apply elem_of_app. by left.
      * by apply Hdir.
  - vm_compute. reflexivity.
Qed.

(** C4 (instance): the policy at '/a/b/' on a POSIX host. *)
Lemma parent_policy_witness :
  let p := new_Path home (js "/a/b/") in
  (isRoot home p = true -> parent home p = p) /\
  (isRoot home p = false -> fragment (parent home p) = []) /\
  full (parent home (new_Path home (js "/a/b/"))) = js "/a/".
Proof.
  apply parent_policy.
  - left. reflexivity.
  - apply (bool_decide_unpack _). vm_compute. reflexivity.
Defined.

(** C4 (counterexample): with the project root '/home/user', the relative
    path '../..' resolves to the root '/', so [parent()] returns it as it is,
    with the fragment '..': the result is not in directory form. *)
Lemma parent_root_keeps_fragment :
  let p := new_Path home (js "../..") in
  isRoot home p = true /\ parent home p = p /\ fragment (parent home p) = js "..".
Proof. vm_compute. repeat split. Qed.

(** ** Code-unit order *)

Lemma code_inj a b : code a = code b -> a = b.
Proof.
  intros H. rewrite <- (ascii_nat_embedding a), <- (ascii_nat_embedding b).
  unfold code in H. by rewrite H.
Qed.

Lemma lex_compare_antisym a b : lex_compare b a = CompOpp (lex_compare a b).
Proof.
  revert b. induction a as [|x a IH]; intros [|y b]; simpl; try done.
  destruct (Nat.compare_spec (code x) (code y)) as [E|E|E].
  - rewrite E, Nat.compare_refl. apply IH.
  - by rewrite (proj2 (Nat.compare_gt_iff _ _) E).
  - by rewrite (proj2 (Nat.compare_lt_iff _ _) E).
Qed.

Lemma lex_compare_eq a b : lex_compare a b = Eq <-> a = b.
Proof.
  split; [|intros ->].
  - revert b. induction a as [|x a IH]; intros [|y b]; simpl; try done.
    destruct (Nat.compare_spec (code x) (code y)) as [E|E|E]; try done.
    intros H. apply code_inj in E. subst. f_equal. by apply IH.
  - induction b as [|x b IH]; simpl; [done|]. by rewrite Nat.compare_refl.
Qed.

Lemma lex_compare_trans_lt a b c :
  lex_compare a b = Lt -> lex_compare b c = Lt -> lex_compare a c = Lt.
Proof.
  revert b c. induction a as [|x a IH]; intros [|y b] [|z c]; simpl; try done.
  destruct (Nat.compare_spec (code x) (code y)) as [E1|E1|E1];
  destruct (Nat.compare_spec (code y) (code z)) as [E2|E2|E2]; try done.
  - rewrite E1, E2, Nat.compare_refl. apply IH.
  - intros _ _. by rewrite E1, (proj2 (Nat.compare_lt_iff _ _) E2).
  - intros _ _. by rewrite <- E2, (proj2 (Nat.compare_lt_iff _ _) E1).
  - intros _ _. by rewrite (proj2 (Nat.compare_lt_iff (code x) (code z)) ltac:(lia)).
Qed.

Lemma lex_leb_trans a b c : lex_leb a b = true -> lex_leb b c = true -> lex_leb a c = true.
Proof.
  unfold lex_leb.
  destruct (lex_compare a b) eqn:E1; try done;
  destruct (lex_compare b c) eqn:E2; try done; intros _ _.
  - apply lex_compare_eq in E1, E2. subst. by rewrite (proj2 (lex_compare_eq c c) eq_refl).
  - apply lex_compare_eq in E1. subst. by rewrite E2.
  - apply lex_compare_eq in E2. subst. by rewrite E1.
  - by rewrite (lex_compare_trans_lt _ _ _ E1 E2).
Qed.

Lemma lex_leb_refl a : lex_leb a a = true.
Proof. unfold lex_leb. by rewrite (proj2 (lex_compare_eq a a) eq_refl). Qed.

(** ** [Path.compare] *)

Lemma collate_consistent : consistent_comparator collate.
Proof.
  unfold collate. set (strip := filter (fun c => negb (bool_decide (c = soft_hyphen)))).
  split; [|split; [|split]].
  - intros a. by rewrite (proj2 (lex_compare_eq (strip a) (strip a)) eq_refl).
  - intros a b. rewrite (lex_compare_antisym (strip a) (strip b)).
    by destruct (lex_compare (strip a) (strip b)).
  - intros a b c.
    destruct (lex_compare (strip a) (strip b)) eqn:E1; try lia;
    destruct (lex_compare (strip b) (strip c)) eqn:E2; try lia.
    by rewrite (lex_compare_trans_lt _ _ _ E1 E2).
  - intros a b c.
    destruct (lex_compare (strip a) (strip b)) eqn:E1; try lia;
    destruct (lex_compare (strip b) (strip c)) eqn:E2; try lia.
    apply lex_compare_eq in E1, E2. rewrite E1, E2.
    by rewrite (proj2 (lex_compare_eq (strip c) (strip c)) eq_refl).
Qed.

(** C6, as the code has it: [compare] hands the [full] strings to
    [localeCompare], so when that is a consistent comparator (as ECMAScript
    requires) [compare] is one too: [compare(a, a) == 0], the sign is
    antisymmetric, the order and the equivalence are transitive, and equal
    paths compare 0.  Paths that compare 0 need not be equal (see the
    counterexample below). *)
Theorem compare_consistent h
  (Hcmp : consistent_comparator (localeCompare h)) (a b c : Path) :
  compare h a a = 0%Z /\
  (equals a b = true -> compare h a b = 0%Z) /\
  Z.sgn (compare h a b) = (- Z.sgn (compare h b a))%Z /\
  ((compare h a b < 0)%Z -> (compare h b c < 0)%Z -> (compare h a c < 0)%Z) /\
  (compare h a b = 0%Z -> compare h b c = 0%Z -> compare h a c = 0%Z).
Proof.
  destruct Hcmp as (Hrefl & Hsgn & Hlt & Heq). unfold compare.
  split; [apply Hrefl|]. split.
  { unfold equals. rewrite bool_decide_eq_true. intros ->. apply Hrefl. }
  split; [apply Hsgn|]. split; [apply Hlt | apply Heq].
Qed.

(** C6 (instance): the comparison of '/a' with '/b' and '/c' on a POSIX host
    whose collation ignores the soft hyphen. *)
Lemma compare_consistent_witness :
  let a := new_Path home (js "/a") in
  let b := new_Path home (js "/b") in
  let c := new_Path home (js "/c") in
  compare home a a = 0%Z /\
  (equals a b = true -> compare home a b = 0%Z) /\
  Z.sgn (compare home a b) = (- Z.sgn (compare home b a))%Z /\
  ((compare home a b < 0)%Z -> (compare home b c < 0)%Z -> (compare home a c < 0)%Z) /\
  (compare home a b = 0%Z -> compare home b c = 0%Z -> compare home a c = 0%Z).
Proof. apply compare_consistent. apply collate_consistent. Defined.

(** C6 (counterexample): under a collation that ignores the soft hyphen
    U+00AD (as the Unicode Collation Algorithm does), 'a' and 'a' followed by
    a soft hyphen compare 0 although they are not [equals]. *)
Lemma compare_zero_not_equals :
  let a := new_Path home (js "a") in
  let b := new_Path home (js "a" ++ [soft_hyphen]) in
  compare home a b = 0%Z /\ equals a b = false.
Proof. vm_compute. split; reflexivity. Qed.

(** ** [Path.commonPrefix]: running it *)

Lemma mapM_getFull_heap (l : list jsval) (hp : heap) : snd (mapM getFull l hp) = hp.
Proof.
  revert hp. induction l as [|v l IH]; intros hp; [done|].
  cbn [mapM]. unfold mbind, M_bind.
  destruct v; cbn; try done;
  specialize (IH hp); destruct (mapM getFull l hp) as [[e|ys] hp'] eqn:E; cbn in *; by subst.
Qed.

Lemma mapM_getFull_paths (ps : list Path) (hp : heap) :
  mapM getFull (map VPath ps) hp = (inr (map (fun p => VStr (full p)) ps), hp).
Proof.
  revert hp. induction ps as [|p ps IH]; intros hp; [done|].
  cbn [mapM map]. unfold mbind, M_bind. cbn. rewrite IH. done.
Qed.

(** The heap after a call: the caller's cells are untouched; at most one
    fresh array is added. *)
Lemma commonPrefix_heap h r cs hp arr :
  hp !! r = Some arr ->
  snd (commonPrefix h r cs hp) = hp \/
  exists a, snd (commonPrefix h r cs hp) = hp ++ [a].
Proof.
  intros Hr. unfold commonPrefix, mbind, M_bind, read. rewrite Hr.
  destruct (length arr <? 2); [by left|].
  pose proof (mapM_getFull_heap arr hp) as Hm.
  destruct (mapM getFull arr hp) as [[e|fulls] hp1]; cbn in Hm; subst hp1; [by left|].
  right. unfold alloc, sortInPlace, mbind, M_bind, read, write.
  assert (E1 : (hp ++ [fulls]) !! length hp = Some fulls) by (by apply list_lookup_middle).
  rewrite E1.
  assert (E2 : <[length hp:=jsSort fulls]> (hp ++ [fulls]) = hp ++ [jsSort fulls]).
  { rewrite insert_app_r_alt by lia. by rewrite Nat.sub_diag. }
  rewrite E2.
  assert (E3 : (hp ++ [jsSort fulls]) !! length hp = Some (jsSort fulls)) by (by apply list_lookup_middle).
  rewrite E3.
  destruct (default VUndef (jsSort fulls !! 0)), (default VUndef (jsSort fulls !! (length (jsSort fulls) - 1)));
    eexists; reflexivity.
Qed.

(** A call on an array of paths, step by step. *)
Lemma commonPrefix_paths h r cs hp (ps : list Path) :
  hp !! r = Some (map VPath ps) ->
  let sorted := jsSort (map (fun p => VStr (full p)) ps) in
  commonPrefix h r cs hp =
    if length ps <? 2 then (inl (InvalidArgument commonPrefix_msg), hp)
    else (match default VUndef (sorted !! 0),
                default VUndef (sorted !! (length sorted - 1)) with
          | VStr first, VStr last => inr (new_Path h (prefixLoop cs first last))
          | _, _ => inl TypeError
          end, hp ++ [sorted]).
Proof.
  intros Hr. cbv zeta. unfold commonPrefix, mbind, M_bind, read. rewrite Hr, length_map.
  destruct (length ps <? 2); [done|].
  rewrite mapM_getFull_paths.
  set (fulls := map (fun p => VStr (full p)) ps).
  unfold alloc, sortInPlace, mbind, M_bind, read, write.
  assert (E1 : (hp ++ [fulls]) !! length hp = Some fulls) by (by apply list_lookup_middle).
  rewrite E1.
  assert (E2 : <[length hp:=jsSort fulls]> (hp ++ [fulls]) = hp ++ [jsSort fulls]).
  { rewrite insert_app_r_alt by lia. by rewrite Nat.sub_diag. }
  rewrite E2.
  assert (E3 : (hp ++ [jsSort fulls]) !! length hp = Some (jsSort fulls)) by (by apply list_lookup_middle).
  rewrite E3.
  by destruct (default VUndef (jsSort fulls !! 0)),
              (default VUndef (jsSort fulls !! (length (jsSort fulls) - 1))).
Qed.

(** ** The sort of the [full] strings *)

Lemma lookup_map_VStr (l : list jstr) i : map VStr l !! i = VStr <$> l !! i.
Proof. revert i. induction l as [|x l IH]; intros [|i]; simpl; auto. Qed.

Lemma filter_defined_VStr (l : list jstr) :
  filter (fun v => negb (is_undef v)) (map VStr l) = map VStr l /\
  filter is_undef (map VStr l) = [].
Proof.
  induction l as [|x l [IH1 IH2]]; [done|].
  rewrite map_cons, !filter_cons. cbn. by rewrite IH1, IH2.
Qed.

Lemma all_VStr (L : list jsval) :
  (forall v, v ∈ L -> exists s, v = VStr s) -> L = map VStr (map sortKey L).
Proof.
  induction L as [|v L IH]; intros Hall; [done|].
  destruct (Hall v) as [s ->]; [by left|]. simpl. f_equal.
  apply IH. intros w Hw. apply Hall. by right.
Qed.

Lemma StronglySorted_sortKey (L : list jsval) :
  StronglySorted (fun x y => is_true (JsValOrder.leb x y)) L ->
  StronglySorted (fun x y => lex_leb x y = true) (map sortKey L).
Proof.
  induction L as [|v L IH]; intros HS; simpl; constructor.
  - apply IH. by inversion HS.
  - apply StronglySorted_inv in HS as [_ HF].
    apply Forall_map. eapply Forall_impl; [exact HF|]. done.
Qed.

(** [paths.map(p => p.full).sort()]: the strings, permuted into code-unit
    order. *)
Lemma sorted_fulls (l : list jstr) :
  exists S, jsSort (map VStr l) = map VStr S /\ Permutation l S /\
            StronglySorted (fun x y => lex_leb x y = true) S.
Proof.
  unfold jsSort. destruct (filter_defined_VStr l) as [-> ->]. rewrite app_nil_r.
  set (L := JsSort.sort (map VStr l)).
  assert (HP : Permutation (map VStr l) L) by apply JsSort.Permuted_sort.
  assert (HV : forall v, v ∈ L -> exists s, v = VStr s).
  { intros v Hv. apply list_elem_of_In in Hv.
    apply (Permutation_in _ (Permutation_sym HP)), in_map_iff in Hv as (s & <- & _). by exists s. }
  exists (map sortKey L). split; [by apply all_VStr|]. split.
  - apply (Permutation_map sortKey) in HP. rewrite map_map in HP. cbn in HP.
    by rewrite map_id in HP.
  - apply StronglySorted_sortKey, Sorted_StronglySorted; [|apply JsSort.Sorted_sort].
    intros x y z. apply lex_leb_trans.
Qed.

(** The first and the last element of a sorted list bound every element. *)
Lemma StronglySorted_bounds {A} (R : A -> A -> Prop) (l : list A) x0 :
  (forall x, R x x) -> StronglySorted R l ->
  forall y, y ∈ l -> R (default x0 (l !! 0)) y /\ R y (default x0 (l !! (length l - 1))).
Proof.
  intros Hrefl. induction l as [|x l IH]; intros HS y Hy; [by apply not_elem_of_nil in Hy|].
  apply StronglySorted_inv in HS as [HS HF]. rewrite Forall_forall in HF.
  cbn [length]. replace (S (length l) - 1) with (length l) by lia.
  destruct l as [|z l].
  - apply list_elem_of_singleton in Hy. subst. simpl. auto.
  - cbn [lookup list_lookup default]. replace (length (z :: l)) with (S (length l)) by done.
    assert (Hlast : forall w, w ∈ z :: l -> R w (default x0 ((z :: l) !! (length (z :: l) - 1)))).
    { intros w Hw. apply (IH HS w Hw). }
    simpl in Hlast. replace (length l - 0) with (length l) in Hlast by lia.
    assert (Hmem : default x0 ((z :: l) !! length l) ∈ z :: l).
    { destruct (lookup_lt_is_Some_2 (z :: l) (length l)) as [w Hw]; [simpl; lia|].
      rewrite Hw. simpl. by eapply list_elem_of_lookup_2. }
    apply elem_of_cons in Hy as [-> | Hy].
    + split; [apply Hrefl|]. by apply HF.
    + split; [by apply HF|]. by apply Hlast.
Qed.

(** ** The prefix loop *)



(** ** [Path.commonPrefix] on two or more paths *)

Lemma commonPrefix_extremes h r cs hp (ps : list Path) :
  hp !! r = Some (map VPath ps) -> 2 <= length ps ->
  exists S first last,
    Permutation (map full ps) S /\ S !! 0 = Some first /\
    S !! (length S - 1) = Some last /\
    (forall e, e ∈ map full ps -> lex_leb first e = true /\ lex_leb e last = true) /\
    commonPrefix h r cs hp = (inr (new_Path h (prefixLoop cs first last)), hp ++ [map VStr S]).
Proof.
  intros Hr Hlen. rewrite (commonPrefix_paths h r cs hp ps Hr).
  replace (length ps <? 2) with false by (symmetry; apply Nat.ltb_ge; lia).
  replace (map (fun p => VStr (full p)) ps) with (map VStr (map full ps))
    by (by rewrite map_map).
  destruct (sorted_fulls (map full ps)) as (S & -> & HP & HS).
  assert (HlenS : length S = length ps) by (rewrite <- (Permutation_length HP); apply length_map).
  destruct (lookup_lt_is_Some_2 S 0) as [first Hf]; [lia|].
  destruct (lookup_lt_is_Some_2 S (length S - 1)) as [last Hl]; [lia|].
  exists S, first, last. split; [done|]. split; [done|]. split; [done|]. split.
  - intros e He.
    assert (HeS : e ∈ S).
    { apply list_elem_of_In. apply list_elem_of_In in He. by apply (Permutation_in _ HP). }
    destruct (StronglySorted_bounds _ S [] lex_leb_refl HS e HeS) as [H1 H2].
    rewrite Hf in H1. rewrite Hl in H2. done.
  - rewrite !lookup_map_VStr, length_map, Hf, Hl. done.
Qed.

Lemma elem_of_Permutation_lookup {A} (l S : list A) i x :
  Permutation l S -> S !! i = Some x -> x ∈ l.
Proof.
  intros HP Hi. apply list_elem_of_In. apply (Permutation_in _ (Permutation_sym HP)).
  apply list_elem_of_In. by eapply list_elem_of_lookup_2.
Qed.




(** ** Errors of [Path.commonPrefix] *)

(** C3: on an array of paths, [commonPrefix] raises exactly when the array
    has fewer than two elements, and then the error is [InvalidArgument];
    with two or more it returns a path. *)
Theorem commonPrefix_raises h r cs hp (ps : list Path)
  (Hr : hp !! r = Some (map VPath ps)) :
  (length ps < 2 -> fst (commonPrefix h r cs hp) = inl (InvalidArgument commonPrefix_msg)) /\
  ((exists e, fst (commonPrefix h r cs hp) = inl e) <-> length ps < 2) /\
  ((exists p, fst (commonPrefix h r cs hp) = inr p) <-> 2 <= length ps).
Proof.
  destruct (Nat.lt_ge_cases (length ps) 2) as [Hlt | Hge].
  - rewrite (commonPrefix_paths h r cs hp ps Hr).
    replace (length ps <? 2) with true by (symmetry; by apply Nat.ltb_lt).
    cbn [fst]. split; [done|].
    split; split; [intros _; lia | intros _; by eexists | intros [p Hp]; discriminate | intros; lia].
  - destruct (commonPrefix_extremes h r cs hp ps Hr Hge) as (S & f & l & _ & _ & _ & _ & ->).
    cbn [fst]. split; [intros; lia|].
    split; split; [intros [e He]; discriminate | intros; lia | intros _; lia | intros _; by eexists].
Qed.

(** C3 (instance): the two-path array returns, a one-path array raises. *)
Lemma commonPrefix_raises_witness :
  ((exists e, fst (commonPrefix home 0 false sample_heap) = inl e) <-> length sample_paths < 2) /\
  fst (commonPrefix home 0 false [map VPath [new_Path home (js "/abc")]])
    = inl (InvalidArgument commonPrefix_msg).
Proof.
  split.
  - exact (proj1 (proj2 (commonPrefix_raises home 0 false sample_heap sample_paths eq_refl))).
  - apply (commonPrefix_raises home 0 false [map VPath [new_Path home (js "/abc")]]
             [new_Path home (js "/abc")] eq_refl). simpl. lia.
Defined.

(** ** Frame of [Path.commonPrefix] *)

(** C10: [commonPrefix] leaves the caller's array as it was (length, order
    and elements), and every other array allocated before the call too: the
    sort runs on a fresh array of [full] strings. *)
Theorem commonPrefix_frame h r cs hp (arr : list jsval) (Hr : hp !! r = Some arr) :
  let hp' := snd (commonPrefix h r cs hp) in
  hp' !! r = Some arr /\ (forall r', r' < length hp -> hp' !! r' = hp !! r').
Proof.
  cbv zeta.
  assert (Hall : forall r', r' < length hp -> snd (commonPrefix h r cs hp) !! r' = hp !! r').
  { intros r' Hr'. destruct (commonPrefix_heap h r cs hp arr Hr) as [-> | [a ->]]; [done|].
    by apply lookup_app_l. }
  split; [|done]. rewrite Hall; [done|]. by eapply lookup_lt_Some.
Qed.

(** C10 (instance): the sample array is still there after the call. *)
Lemma commonPrefix_frame_witness :
  snd (commonPrefix home 0 true sample_heap) !! 0 = Some (map VPath sample_paths).
Proof. exact (proj1 (commonPrefix_frame home 0 true sample_heap _ eq_refl)). Defined.

(** * Further properties of the code *)

(** ** [asDirectory] *)

Lemma asDirectory_shape h s :
  let p := new_Path h s in
  let q := asDirectory h p in
  sep q = sep p /\ fragment q = [] /\ directory q = full q.
Proof.
  cbv zeta. split; [|split].
  - unfold asDirectory. rewrite new_Path_full.
    destruct (truthy (fragment (new_Path h s))).
    + rewrite !new_Path_sep. apply preferredSeparatorFor_snoc.
    + by rewrite app_nil_r.
  - apply asDirectory_fragment.
  - pose proof (asDirectory_fragment h s) as Hfr.
    unfold asDirectory in *. rewrite new_Path_full in *.
    set (t := s ++ (if truthy (fragment (new_Path h s)) then [sep (new_Path h s)] else [])) in *.
    destruct (new_Path_decomp h t) as (_ & _ & [(_ & Ht & ->) | (u & Ht & _ & ->)]).
    + by rewrite <- Ht, Hfr.
    + rewrite Hfr in Ht. by rewrite new_Path_full.
Qed.

(** [asDirectory()] keeps the separator of the path, and its result is in
    directory form: a blank fragment, and a directory that is the whole
    [full] string. *)
Theorem asDirectory_keeps_sep h s :
  let p := new_Path h s in
  let q := asDirectory h p in
  sep q = sep p /\ fragment q = [] /\ directory q = full q.
Proof. apply asDirectory_shape. Qed.

(** Appending the separator to a path whose fragment is the token [f]
    ([asDirectory()]) gives a path with the shortcut [f]. *)
Theorem asDirectory_hasShortcut h s (Hf : fragment (new_Path h s) <> []) :
  hasShortcut (asDirectory h (new_Path h s)) (fragment (new_Path h s)) = true.
Proof.
  destruct (asDirectory_shape h s) as (Hsep & Hfr & Hdir). cbv zeta in Hsep, Hfr, Hdir.
  pose proof (new_Path_decomp h s) as Hdec. cbv zeta in Hdec.
  set (p := new_Path h s) in *.
  unfold hasShortcut. rewrite Hsep, Hfr, Hdir. cbn [truthy negb andb].
  unfold asDirectory. rewrite new_Path_full.
  assert (Htr : truthy (fragment p) = true) by (by destruct (fragment p)).
  rewrite Htr.
  destruct Hdec as (_ & Hfull & [(_ & Ht & _) | (u & Hs & _ & _)]).
  - apply orb_true_iff. right. apply bool_decide_eq_true. by rewrite Ht.
  - apply orb_true_iff. left. apply endsWith_spec. exists u.
    rewrite Hfull, Hs. by rewrite <- app_assoc.
Qed.

(** Instance: '/foo/:' becomes '/foo/:/', which has the shortcut ':'. *)
Lemma asDirectory_hasShortcut_witness :
  hasShortcut (asDirectory home (new_Path home (js "/foo/:")))
              (fragment (new_Path home (js "/foo/:"))) = true.
Proof. apply asDirectory_hasShortcut. vm_compute. discriminate. Defined.

(** ** [parent] and [isRoot] on a POSIX host *)

(** *** node's [path.posix.dirname] *)

Lemma dirname_scan_bound path i m e :
  dirname_scan path i m = Some e -> 1 <= e <= i /\ (m = true -> e < i).
Proof.
  revert m. induction i as [|i IH]; intros m; cbn [dirname_scan]; [done|].
  case_bool_decide.
  - destruct m.
    + intros He. destruct (IH true He) as [H1 H2]. split; [lia|]. intros _. specialize (H2 eq_refl). lia.
    + intros [= <-]. split; [lia|done].
  - intros He. destruct (IH false He). split; [lia|]. intros _. lia.
Qed.

Lemma head_take {A} (n : nat) (l : list A) : 1 <= n -> head (take n l) = head l.
Proof. intros Hn. destruct n as [|n]; [lia|]. by destruct l. Qed.

(** [dirname] keeps a leading [/] and never adds one. *)
Lemma posix_dirname_head x :
  posix_dirname x <> [] /\ (head (posix_dirname x) = Some "/"%char <-> head x = Some "/"%char).
Proof.
  destruct x as [|c r]; [done|]. unfold posix_dirname.
  destruct (dirname_scan (c :: r) (length (c :: r) - 1) true) as [e|] eqn:Es.
  - apply dirname_scan_bound in Es as [[H1 _] _].
    destruct (decide (c = "/"%char)) as [->|Hc].
    + rewrite bool_decide_eq_true_2 by done. cbn [andb].
      destruct (e =? 1); [done|]. rewrite head_take by done.
      split; [|done]. destruct e; [lia|done].
    + rewrite bool_decide_eq_false_2 by done. cbn [andb]. rewrite head_take by done.
      split; [destruct e; [lia|done]|done].
  - case_bool_decide as Hc; (split; [done|]); cbn; [subst; done|].
    split; intros [= E]; congruence.
Qed.

(** [dirname] of an absolute path is [/] or a shorter absolute path. *)
Lemma posix_dirname_shorter c r :
  c = "/"%char ->
  c :: r = js "/" \/
  (head (posix_dirname (c :: r)) = Some "/"%char /\ length (posix_dirname (c :: r)) < length (c :: r)).
Proof.
  intros ->. destruct r as [|c' r]; [by left|right].
  split; [by apply posix_dirname_head|].
  unfold posix_dirname. rewrite bool_decide_eq_true_2 by done. cbn [andb].
  destruct (dirname_scan _ _ true) as [e|] eqn:Es.
  - apply dirname_scan_bound in Es as [[H1 H2] H3]. specialize (H3 eq_refl).
    cbn [length] in *. destruct (e =? 1) eqn:E1.
    + apply Nat.eqb_eq in E1. subst. cbn. lia.
    + rewrite length_take. cbn [length]. lia.
  - cbn. lia.
Qed.

(** The fixed points of [dirname] are [/] and [.]. *)
Lemma posix_dirname_fixed x : posix_dirname x = x <-> x = js "/" \/ x = js ".".
Proof.
  split; [|intros [-> | ->]; reflexivity].
  destruct x as [|c r]; [done|]. unfold posix_dirname.
  destruct (dirname_scan (c :: r) (length (c :: r) - 1) true) as [e|] eqn:Es.
  - apply dirname_scan_bound in Es as [[H1 H2] H3]. specialize (H3 eq_refl).
    cbn [length] in *.
    destruct (bool_decide (c = "/"%char) && (e =? 1)) eqn:E.
    + apply andb_true_iff in E as [_ E]. apply Nat.eqb_eq in E. subst.
      intros Hx. assert (Hl : length (js "//") = length (c :: r)) by (by rewrite Hx).
      cbn in Hl. lia.
    + intros Hx. assert (Hl : length (take e (c :: r)) = length (c :: r)) by (by rewrite Hx).
      rewrite length_take in Hl. cbn [length] in Hl. lia.
  - case_bool_decide; intros <-; auto.
Qed.

(** On a host with node's POSIX [dirname], a path is a root exactly when
    its absolute form is [/] (or [.], which [dirname] also leaves alone). *)
Theorem isRoot_posix h (Hdir : forall x, dirname h x = posix_dirname x) (p : Path) :
  isRoot h p = true <-> absolute p = js "/" \/ absolute p = js ".".
Proof. unfold isRoot. rewrite bool_decide_eq_true, Hdir. apply posix_dirname_fixed. Qed.

(** Instance: '/' on the POSIX host. *)
Lemma isRoot_posix_witness :
  isRoot home (new_Path home (js "/")) = true <->
  absolute (new_Path home (js "/")) = js "/" \/ absolute (new_Path home (js "/")) = js ".".
Proof. apply isRoot_posix. intros x. reflexivity. Defined.

Lemma sep_in_path h s :
  (native_sep h = "/"%char \/ native_sep h = "\"%char) ->
  "/"%char ∈ s -> preferredSeparatorFor h s ∈ s.
Proof.
  intros Hn Hin. unfold preferredSeparatorFor.
  assert (F : contains "/"%char s = true) by (by apply contains_true).
  rewrite F. destruct (contains "\"%char s) eqn:B; cbn [andb negb].
  - apply contains_true in B. by destruct Hn as [-> | ->].
  - done.
Qed.

Lemma head_app_l {A} (l k : list A) : l <> [] -> head (l ++ k) = head l.
Proof. by destruct l. Qed.

(** On a host with node's POSIX [dirname] (and [/] or [\] as native
    separator), [parent()] keeps a path absolute or relative: its [full]
    starts with [/] exactly when the path's [full] does. *)
Theorem parent_keeps_leading_slash h s
  (Hdir : forall x, dirname h x = posix_dirname x)
  (Hnative : native_sep h = "/"%char \/ native_sep h = "\"%char) :
  head (full (parent h (new_Path h s))) = Some "/"%char <-> head s = Some "/"%char.
Proof.
  pose proof (new_Path_decomp h s) as Hdec. cbv zeta in Hdec.
  set (p := new_Path h s) in *.
  destruct Hdec as (Hsep & Hfull & Hcases).
  unfold parent. destruct (isRoot h p); [by rewrite Hfull|].
  destruct (truthy (fragment p)) eqn:Ht.
  - rewrite new_Path_full.
    destruct Hcases as [(Hn & Hf & ->) | (u & Hs & _ & ->)].
    + cbn. split; [done|]. intros Hh. exfalso. apply Hn. rewrite Hsep.
      apply sep_in_path; [done|]. destruct s as [|c r]; [done|].
      injection Hh as ->. by left.
    + rewrite Hs. destruct u; done.
  - assert (Hd : directory p = s).
    { destruct Hcases as [(_ & Hf & ->) | (u & Hs & _ & ->)].
      - rewrite Hf in Ht. by destruct s.
      - destruct (fragment p); [|done]. by rewrite Hs. }
    cbv zeta. rewrite Hd, Hdir.
    destruct (posix_dirname_head s) as [Hne Hh].
    destruct (negb (endsWith (posix_dirname s) [sep p])); rewrite new_Path_full;
      [rewrite head_app_l by done|]; done.
Qed.

(** Instance: the relative path '../a' on the POSIX host. *)
Lemma parent_keeps_leading_slash_witness :
  head (full (parent home (new_Path home (js "../a")))) = Some "/"%char <->
  head (js "../a") = Some "/"%char.
Proof.
  apply parent_keeps_leading_slash.
  - intros x. reflexivity.
  - left. reflexivity.
Defined.

(** ** [root] *)

(** When the loop of [root()] ends, its value is a fixed point of
    [dirname]: the loop only stops when [dirname] returned its argument. *)
Lemma root_loop_fixed h fuel last current r :
  (forall x, last = Some x -> current = dirname h x) ->
  root_loop h fuel last current = Some r -> dirname h r = r.
Proof.
  revert last current. induction fuel as [|fuel IH]; intros last current Hinv; cbn [root_loop];
    [done|].
  case_bool_decide as E.
  - intros [= <-]. symmetry. by apply Hinv.
  - apply IH. by intros x [= <-].
Qed.

Lemma root_shape h fuel p q :
  root h fuel p = Some q ->
  dirname h (full q) = full q /\
  (absolutify h (full q) = full q ->
   isRoot h q = true /\ forall fuel', 2 <= fuel' -> root h fuel' q = Some q).
Proof.
  unfold root. intros (r & Hr & ->)%fmap_Some. rewrite new_Path_full.
  assert (Hfix : dirname h r = r) by (apply (root_loop_fixed h fuel None (absolute p)); [intros x [=] | exact Hr]).
  split; [done|]. intros Habs. split.
  - unfold isRoot. cbn [absolute new_Path]. rewrite Habs. by apply bool_decide_eq_true.
  - intros fuel' Hf. destruct fuel' as [|[|fuel']]; [lia|lia|].
    cbn [absolute new_Path]. rewrite Habs. cbn [root_loop].
    rewrite bool_decide_eq_false_2 by done. rewrite Hfix.
    rewrite bool_decide_eq_true_2 by done. done.
Qed.

(** [root()], when its loop ends, gives a path whose [full] is a fixed point
    of [dirname]; when [absolutify] leaves that string as it is (as it does
    an absolute path), the result is a root ([isRoot()]) and [root()] of it
    is itself, after two tests of the loop condition. *)
Theorem root_returns_root h fuel p q (Hq : root h fuel p = Some q) :
  dirname h (full q) = full q /\
  (absolutify h (full q) = full q ->
   isRoot h q = true /\ forall fuel', 2 <= fuel' -> root h fuel' q = Some q).
Proof. exact (root_shape h fuel p q Hq). Qed.

(** Instance: [root()] of '/a/b' on the POSIX host. *)
Lemma root_returns_root_witness :
  dirname home (full (new_Path home (js "/"))) = full (new_Path home (js "/")) /\
  (absolutify home (full (new_Path home (js "/"))) = full (new_Path home (js "/")) ->
   isRoot home (new_Path home (js "/")) = true /\
   forall fuel', 2 <= fuel' -> root home fuel' (new_Path home (js "/")) = Some (new_Path home (js "/"))).
Proof.
  apply (root_returns_root home 10 (new_Path home (js "/a/b"))).
  vm_compute. reflexivity.
Defined.

Lemma root_loop_posix h (Hdir : forall x, dirname h x = posix_dirname x) fuel c :
  head c = Some "/"%char -> length c + 1 <= fuel ->
  root_loop h fuel (Some c) (dirname h c) = Some (js "/").
Proof.
  revert c. induction fuel as [|fuel IH]; intros c Hc Hf; [lia|].
  destruct c as [|c0 r]; [done|]. injection Hc as Hc.
  cbn [root_loop]. rewrite Hdir.
  destruct (posix_dirname_shorter c0 r Hc) as [E | [Hh Hl]].
  - rewrite E. rewrite bool_decide_eq_true_2 by done. done.
  - set (d := posix_dirname (c0 :: r)) in *.
    rewrite bool_decide_eq_false_2 by (intros [= E]; rewrite E in Hl; lia).
    apply IH; [done|lia].
Qed.

(** On a host with node's POSIX [dirname], [root()] of a path whose
    absolute form starts with [/] is the path [/], and its loop ends after
    at most [length + 2] tests of its condition. *)
Theorem root_posix h (Hdir : forall x, dirname h x = posix_dirname x) (p : Path)
  (Habs : head (absolute p) = Some "/"%char) fuel (Hfuel : length (absolute p) + 2 <= fuel) :
  root h fuel p = Some (new_Path h (js "/")).
Proof.
  unfold root. destruct fuel as [|fuel]; [lia|]. cbn [root_loop].
  rewrite bool_decide_eq_false_2 by done.
  pose proof (root_loop_posix h Hdir fuel (absolute p) Habs ltac:(lia)) as E.
  unfold jstr in *. by rewrite E.
Qed.

(** Instance: [root()] of '/a/b' with eight tests of the loop condition. *)
Lemma root_posix_witness :
  root home 8 (new_Path home (js "/a/b")) = Some (new_Path home (js "/")).
Proof.
  apply root_posix.
  - intros x. reflexivity.
  - vm_compute. reflexivity.
  - vm_compute. lia.
Defined.

(** ** [initial] *)

Lemma new_Path_native h x :
  (native_sep h = "/"%char \/ native_sep h = "\"%char) ->
  sep (new_Path h (x ++ [native_sep h])) = native_sep h /\
  fragment (new_Path h (x ++ [native_sep h])) = [].
Proof.
  intros Hn.
  assert (E : preferredSeparatorFor h (x ++ [native_sep h]) = native_sep h).
  { apply preferredSeparatorFor_ends; [done| |by left].
    apply elem_of_app. right. by left. }
  split; [by rewrite new_Path_sep|]. by apply fragment_ends_sep.
Qed.

(** [Path.initial()] is the blank path or a path in directory form that
    ends with the native separator and splits on it (when the native
    separator is [/] or [\]), whatever the setting, the editor and the
    project. *)
Theorem initial_directory_form h ctx
  (Hnative : native_sep h = "/"%char \/ native_sep h = "\"%char) :
  fragment (initial h ctx) = [] /\
  (full (initial h ctx) = [] \/
   (sep (initial h ctx) = native_sep h /\ exists x, full (initial h ctx) = x ++ [native_sep h])).
Proof.
  assert (Hcase : forall x,
    fragment (new_Path h (x ++ [native_sep h])) = [] /\
    (full (new_Path h (x ++ [native_sep h])) = [] \/
     (sep (new_Path h (x ++ [native_sep h])) = native_sep h /\
      exists y, full (new_Path h (x ++ [native_sep h])) = y ++ [native_sep h]))).
  { intros x. destruct (new_Path_native h x Hnative) as [Hs Hf].
    split; [done|]. right. split; [done|]. by exists x. }
  assert (Hempty : fragment (new_Path h []) = [] /\
    (full (new_Path h []) = [] \/
     (sep (new_Path h []) = native_sep h /\ exists y, full (new_Path h []) = y ++ [native_sep h]))).
  { split; [reflexivity|left; reflexivity]. }
  unfold initial.
  destruct (config_defaultInputValue ctx), (activeEditorPath ctx) as [ep|], (projectPath ctx) as [pp|];
    repeat case_match; cbn [default]; first [apply Hcase | exact Hempty].
Qed.

(** Instance: the directory of the active file, '/home/user/'. *)
Lemma initial_directory_form_witness :
  fragment (initial home sample_context) = [] /\
  (full (initial home sample_context) = [] \/
   (sep (initial home sample_context) = native_sep home /\
    exists x, full (initial home sample_context) = x ++ [native_sep home])).
Proof. apply initial_directory_form. left. reflexivity. Defined.

(** ** [Path.commonPrefix]: more properties *)

Lemma lex_leb_antisym a b : lex_leb a b = true -> lex_leb b a = true -> a = b.
Proof.
  unfold lex_leb. rewrite (lex_compare_antisym a b).
  destruct (lex_compare a b) eqn:E; cbn; try done. intros _ _. by apply lex_compare_eq.
Qed.

Lemma elem_of_perm {A} (l k : list A) x : Permutation l k -> x ∈ l -> x ∈ k.
Proof.
  intros HP Hx. apply list_elem_of_In. apply list_elem_of_In in Hx.
  by apply (Permutation_in _ HP).
Qed.

(** The first and the last string the sort puts at the ends are the least
    and the greatest of the [full] strings, so any two runs over the same
    strings pick the same two. *)
Lemma extremes_unique (L L' : list jstr) f l f' l' :
  (forall e, e ∈ L <-> e ∈ L') ->
  f ∈ L -> l ∈ L -> f' ∈ L' -> l' ∈ L' ->
  (forall e, e ∈ L -> lex_leb f e = true /\ lex_leb e l = true) ->
  (forall e, e ∈ L' -> lex_leb f' e = true /\ lex_leb e l' = true) ->
  f = f' /\ l = l'.
Proof.
  intros HL Hf Hl Hf' Hl' Hb Hb'. split; apply lex_leb_antisym.
  - apply Hb. by apply HL.
  - by apply Hb'; apply HL.
  - apply Hb'. by apply HL.
  - by apply Hb; apply HL.
Qed.

(** [commonPrefix] does not depend on the order of the array: two arrays
    holding the same paths in any order give the same result (the same
    error for fewer than two). *)
Theorem commonPrefix_order_independent h r r' cs hp hp' (ps ps' : list Path)
  (Hr : hp !! r = Some (map VPath ps)) (Hr' : hp' !! r' = Some (map VPath ps'))
  (HP : Permutation ps ps') :
  fst (commonPrefix h r cs hp) = fst (commonPrefix h r' cs hp').
Proof.
  pose proof (Permutation_length HP) as Hlen.
  destruct (Nat.lt_ge_cases (length ps) 2) as [Hlt | Hge].
  - pose proof (commonPrefix_paths h r cs hp ps Hr) as E1.
    pose proof (commonPrefix_paths h r' cs hp' ps' Hr') as E2.
    cbv zeta in E1, E2. rewrite E1, E2, <- Hlen.
    replace (length ps <? 2) with true by (symmetry; by apply Nat.ltb_lt). done.
  - destruct (commonPrefix_extremes h r cs hp ps Hr Hge)
      as (S & f & l & HPS & Hf & Hl & Hb & ->).
    destruct (commonPrefix_extremes h r' cs hp' ps' Hr' ltac:(lia))
      as (S' & f' & l' & HPS' & Hf' & Hl' & Hb' & ->).
    cbn [fst].
    assert (HM : Permutation (map full ps) (map full ps')) by (by apply Permutation_map).
    destruct (extremes_unique (map full ps) (map full ps') f l f' l') as [-> ->].
    + intros e. split; intros He;
        [exact (elem_of_perm _ _ _ HM He) | exact (elem_of_perm _ _ _ (Permutation_sym HM) He)].
    + exact (elem_of_Permutation_lookup _ _ _ _ HPS Hf).
    + exact (elem_of_Permutation_lookup _ _ _ _ HPS Hl).
    + exact (elem_of_Permutation_lookup _ _ _ _ HPS' Hf').
    + exact (elem_of_Permutation_lookup _ _ _ _ HPS' Hl').
    + done.
    + done.
    + done.
Qed.

(** Instance: '/abc', '/abd' in both orders. *)
Lemma commonPrefix_order_independent_witness :
  fst (commonPrefix home 0 false sample_heap) = fst (commonPrefix home 0 false sample_heap_swapped).
Proof.
  apply (commonPrefix_order_independent home 0 0 false sample_heap sample_heap_swapped
           sample_paths (rev sample_paths)).
  - reflexivity.
  - reflexivity.
  - apply perm_swap.
Defined.

Lemma prefixLoop_true_false a b : prefixLoop true a b `prefix_of` prefixLoop false a b.
Proof.
  revert b. induction a as [|x a IH]; intros [|y b]; cbn [prefixLoop]; try apply prefix_nil.
  case_bool_decide; [by apply prefix_cons|]. apply prefix_nil.
Qed.

(** On two or more paths, the case-sensitive result is a prefix of the
    case-insensitive one: case-insensitive matching only goes further. *)
Theorem commonPrefix_case_sensitive_prefix h r hp (ps : list Path)
  (Hr : hp !! r = Some (map VPath ps)) (Hlen : 2 <= length ps) :
  exists p q, fst (commonPrefix h r true hp) = inr p /\
              fst (commonPrefix h r false hp) = inr q /\ full p `prefix_of` full q.
Proof.
  destruct (commonPrefix_extremes h r true hp ps Hr Hlen)
    as (S & f & l & HPS & Hf & Hl & Hb & ->).
  destruct (commonPrefix_extremes h r false hp ps Hr Hlen)
    as (S' & f' & l' & HPS' & Hf' & Hl' & Hb' & ->).
  destruct (extremes_unique (map full ps) (map full ps) f l f' l') as [<- <-];
    [done | exact (elem_of_Permutation_lookup _ _ _ _ HPS Hf)
    | exact (elem_of_Permutation_lookup _ _ _ _ HPS Hl)
    | exact (elem_of_Permutation_lookup _ _ _ _ HPS' Hf')
    | exact (elem_of_Permutation_lookup _ _ _ _ HPS' Hl') | done | done |].
  do 2 eexists. split; [done|]. split; [done|]. cbn [full new_Path].
  apply prefixLoop_true_false.
Qed.

(** Instance: '/abc' and '/abd'. *)
Lemma commonPrefix_case_sensitive_prefix_witness :
  exists p q, fst (commonPrefix home 0 true sample_heap) = inr p /\
              fst (commonPrefix home 0 false sample_heap) = inr q /\ full p `prefix_of` full q.
Proof.
  apply (commonPrefix_case_sensitive_prefix home 0 sample_heap sample_paths).
  - reflexivity.
  - simpl. lia.
Defined.

Lemma prefixLoop_same cs a : prefixLoop cs a a = a.
Proof.
  induction a as [|x a IH]; [done|]. cbn [prefixLoop].
  rewrite bool_decide_eq_true_2 by done. by rewrite IH.
Qed.

(** On two or more paths that all have the [full] string [s],
    [commonPrefix] gives the path [s] in both modes (nothing is lowered). *)
Theorem commonPrefix_same h r cs hp (ps : list Path) (s : jstr)
  (Hr : hp !! r = Some (map VPath ps)) (Hlen : 2 <= length ps)
  (Hall : Forall (fun p => full p = s) ps) :
  fst (commonPrefix h r cs hp) = inr (new_Path h s).
Proof.
  destruct (commonPrefix_extremes h r cs hp ps Hr Hlen)
    as (S & f & l & HPS & Hf & Hl & _ & ->).
  assert (Hs : forall e, e ∈ map full ps -> e = s).
  { intros e He. apply list_elem_of_In, in_map_iff in He as (p & <- & Hp).
    rewrite Forall_forall in Hall. apply Hall. by apply list_elem_of_In. }
  rewrite (Hs f (elem_of_Permutation_lookup _ _ _ _ HPS Hf)),
          (Hs l (elem_of_Permutation_lookup _ _ _ _ HPS Hl)).
  cbn [fst]. by rewrite prefixLoop_same.
Qed.

(** Instance: '/Abc' twice gives '/Abc', also case-insensitively. *)
Lemma commonPrefix_same_witness :
  fst (commonPrefix home 0 false [map VPath [new_Path home (js "/Abc"); new_Path home (js "/Abc")]])
    = inr (new_Path home (js "/Abc")).
Proof.
  apply (commonPrefix_same home 0 false _ [new_Path home (js "/Abc"); new_Path home (js "/Abc")]).
  - reflexivity.
  - simpl. lia.
  - repeat constructor.
Defined.
